(** * Arduino core stub (Arduino.cpp / Arduino.h): a shallow embedding

    The embedded code is the minimal Arduino core of
    [src/arduino_ide/cores/arduino/Arduino.cpp].  The file targets AVR
    (it includes [<avr/io.h>] and its [main] is "required by AVR"), so the
    integer types are those of avr-gcc: [uint8_t] is 8 bits, [int] and
    [unsigned int] are 16 bits, [long] and [unsigned long] are 32 bits.
    Integers are modelled as [Z] with the reduction to the type's range
    written out at every operation: modulo 2^16 or 2^32 for the unsigned
    types, and the two's-complement reduction that the AVR instructions
    perform for [long].

    Part I holds the definitions, Part II the theorems. *)

From Stdlib Require Import ZArith List Lia Bool.
From Equations Require Import Equations.
Import ListNotations.

Local Open Scope Z_scope.

(** * Part I: definitions *)

(** ** Machine integers of the AVR target *)

Module CInt.

Definition UINT_MAX : Z := 65535.
Definition ULONG_MAX : Z := 4294967295.
Definition LONG_MIN : Z := -2147483648.
Definition LONG_MAX : Z := 2147483647.

(** Conversion to [unsigned int]: reduction modulo 2^16. *)
Definition to_uint (z : Z) : Z := z mod 65536.

(** Conversion to [unsigned long]: reduction modulo 2^32. *)
Definition to_ulong (z : Z) : Z := z mod 4294967296.

(** Conversion to [long]: two's-complement reduction into
    [LONG_MIN .. LONG_MAX]. *)
Definition to_long (z : Z) : Z := (z + 2147483648) mod 4294967296 - 2147483648.

Definition is_long (z : Z) : Prop := LONG_MIN <= z <= LONG_MAX.
Definition is_ulong (z : Z) : Prop := 0 <= z <= ULONG_MAX.
Definition is_uint (z : Z) : Prop := 0 <= z <= UINT_MAX.

(** Arithmetic on [long]: the exact result, reduced to 32 bits. *)
Definition long_add (a b : Z) : Z := to_long (a + b).
Definition long_sub (a b : Z) : Z := to_long (a - b).
Definition long_mul (a b : Z) : Z := to_long (a * b).

(** Remainder of [long] by a nonzero [long]: sign of the dividend
    ([Z.rem]). *)
Definition long_rem (a b : Z) : Z := to_long (Z.rem a b).

(** Arithmetic on [unsigned long] and on [unsigned int]. *)
Definition ulong_add (a b : Z) : Z := to_ulong (a + b).
Definition ulong_mul (a b : Z) : Z := to_ulong (a * b).
Definition uint_add (a b : Z) : Z := to_uint (a + b).

End CInt.

Import CInt.

(** ** Results of fallible arithmetic *)

Inductive arith_error : Type :=
| DivisionByZero.

Inductive result (A : Type) : Type :=
| Ok (a : A)
| Err (e : arith_error).

Arguments Ok {A} a.
Arguments Err {A} e.

(** Division of [long] by [long]: C truncates towards zero ([Z.quot]);
    a zero divisor has no result. *)
Definition long_div (a b : Z) : result Z :=
  if b =? 0 then Err DivisionByZero else Ok (to_long (Z.quot a b)).

(** ** Math utility: [map] (Arduino.cpp, lines 154-156)

<<
long map(long x, long in_min, long in_max, long out_min, long out_max) {
    return (x - in_min) * (out_max - out_min) / (in_max - in_min) + out_min;
}
>> *)
Definition map (x in_min in_max out_min out_max : Z) : result Z :=
  match long_div (long_mul (long_sub x in_min) (long_sub out_max out_min))
                 (long_sub in_max in_min) with
  | Ok q => Ok (long_add q out_min)
  | Err e => Err e
  end.

(** The re-scaling as the specification writes it: exact integer
    arithmetic with truncating division. *)
Definition exact_rescale (x in_min in_max out_min out_max : Z) : Z :=
  Z.quot ((x - in_min) * (out_max - out_min)) (in_max - in_min) + out_min.

(** ** Constants of Arduino.h *)

Definition HIGH : Z := 1.
Definition LOW : Z := 0.
Definition INPUT : Z := 0.
Definition OUTPUT : Z := 1.
Definition INPUT_PULLUP : Z := 2.
Definition LED_BUILTIN : Z := 13.
Definition A0 : Z := 14.
Definition A5 : Z := 19.

(** ** The platform under the core

    [rand] and [srand] belong to the C library, not to this repository:
    they are an interface with the one law the C standard gives, that
    [rand] returns a value between 0 and [RAND_MAX].  [hardware] stands for
    whatever the I/O registers of the board hold. *)

(** [RAND_MAX] of avr-libc. *)
Definition RAND_MAX : Z := 32767.

Class Platform : Type := {
  hardware : Type;
  rand_state : Type;
  rand : rand_state -> Z * rand_state;
  srand : Z -> rand_state -> rand_state;
  rand_range : forall s, 0 <= fst (rand s) <= RAND_MAX
}.

(** A platform to run the core on: no I/O registers, and the generator the
    C standard gives as its sample implementation of [rand]. *)
Definition sample_rand (s : Z) : Z * Z :=
  let s' := to_ulong (s * 1103515245 + 12345) in
  ((s' / 65536) mod 32768, s').

Definition sample_platform : Platform.
Proof.
  refine {| hardware := unit;
            rand_state := Z;
            rand := sample_rand;
            srand := fun seed _ => seed |}.
  intros s. unfold sample_rand, RAND_MAX. cbn [fst].
  pose proof (Z.mod_pos_bound (to_ulong (s * 1103515245 + 12345) / 65536) 32768).
  lia.
Defined.

(** ** What a caller observes of a call

    [Failed] is the outcome the specification asks for on a bad pin; the
    error names are those of the specification's error taxonomy. *)

Inductive pin_error : Type :=
| InvalidPin
| WrongMode
| NotAnalogCapable
| NotPwmCapable.

Inductive outcome (A : Type) : Type :=
| Completed (a : A)
| Failed (e : pin_error).

Arguments Completed {A} a.
Arguments Failed {A} e.

Section Core.

Context {P : Platform}.

(** ** The state the core runs in

    [nops] counts the [nop] instructions executed by the busy-wait loops
    and [millis_calls] the entries into [millis()]; both are
    instrumentation and no function reads them. *)
Record World : Type := mkWorld {
  hw : hardware;
  rng : rand_state;
  nops : Z;
  millis_calls : Z
}.

Definition set_rng (s : rand_state) (w : World) : World :=
  mkWorld (hw w) s (nops w) (millis_calls w).

(** [__asm__ __volatile__("nop")] *)
Definition nop (w : World) : World :=
  mkWorld (hw w) (rng w) (nops w + 1) (millis_calls w).

Definition add_nops (n : Z) (w : World) : World :=
  mkWorld (hw w) (rng w) (nops w + n) (millis_calls w).

Definition enter_millis (w : World) : World :=
  mkWorld (hw w) (rng w) (nops w) (millis_calls w + 1).

(** A C function of the core: it reads and writes the world and returns
    a value. *)
Definition M (A : Type) : Type := World -> A * World.

Definition ret {A : Type} (a : A) : M A := fun w => (a, w).

Definition bind {A B : Type} (m : M A) (k : A -> M B) : M B :=
  fun w => let (a, w') := m w in k a w'.

Definition seq {A B : Type} (m : M A) (k : M B) : M B :=
  bind m (fun _ => k).

(** ** Digital and analog I/O (Arduino.cpp, lines 22-57): stubs *)

Definition pinMode (pin mode : Z) : M unit := ret tt.

Definition digitalWrite (pin val : Z) : M unit := ret tt.

Definition digitalRead (pin : Z) : M Z := ret LOW.

Definition analogRead (pin : Z) : M Z := ret 0.

Definition analogReference (mode : Z) : M unit := ret tt.

Definition analogWrite (pin val : Z) : M unit := ret tt.

(** ** Timing (Arduino.cpp, lines 59-82) *)

Definition millis : M Z := fun w => (0, enter_millis w).

Definition micros : M Z := ret 0.

(** The loop of [delay], entered with the counter at [i]:
<<
    for (unsigned long i = 0; i < ms * 1000; i++) {
        __asm__ __volatile__("nop");
    }
>>
    [ms * 1000] is an [unsigned long] product. *)
Equations? delay_loop (ms i : Z) (w : World) : World
  by wf (Z.to_nat (ulong_mul ms 1000 - i)) lt :=
delay_loop ms i w with Z_lt_dec i (ulong_mul ms 1000) => {
  | left _ := delay_loop ms (ulong_add i 1) (nop w);
  | right _ := w }.
Proof.
  unfold ulong_add, ulong_mul, to_ulong in *.
  pose proof (Z.mod_pos_bound (ms * 1000) 4294967296).
  pose proof (Z.mod_pos_bound (i + 1) 4294967296).
  destruct (Z_lt_dec i 0) as [Hneg | Hpos].
  - lia.
  - rewrite (Z.mod_small (i + 1)) by lia. lia.
Qed.

Definition delay (ms : Z) : M unit := fun w => (tt, delay_loop ms 0 w).

(** The loop of [delayMicroseconds]; [us] and [i] are [unsigned int]:
<<
    for (unsigned int i = 0; i < us; i++) {
        __asm__ __volatile__("nop");
    }
>> *)
Equations? delayMicroseconds_loop (us i : Z) (w : World) : World
  by wf (Z.to_nat (to_uint us - i)) lt :=
delayMicroseconds_loop us i w with Z_lt_dec i (to_uint us) => {
  | left _ := delayMicroseconds_loop us (uint_add i 1) (nop w);
  | right _ := w }.
Proof.
  unfold uint_add, to_uint in *.
  pose proof (Z.mod_pos_bound us 65536).
  pose proof (Z.mod_pos_bound (i + 1) 65536).
  destruct (Z_lt_dec i 0) as [Hneg | Hpos].
  - lia.
  - rewrite (Z.mod_small (i + 1)) by lia. lia.
Qed.

Definition delayMicroseconds (us : Z) : M unit :=
  fun w => (tt, delayMicroseconds_loop us 0 w).

(** ** Random numbers (Arduino.cpp, lines 131-151) *)

(** A call of the C library's [rand()]. *)
Definition call_rand : M Z :=
  fun w => let (r, s) := rand (rng w) in (r, set_rng s w).

(** A call of the C library's [srand(unsigned int)]. *)
Definition call_srand (seed : Z) : M unit :=
  fun w => (tt, set_rng (srand (to_uint seed) (rng w)) w).

(**
<<
void randomSeed(unsigned long seed) {
    if (seed != 0) {
        srand(seed);
    }
}
>> *)
Definition randomSeed (seed : Z) : M unit :=
  if negb (seed =? 0) then call_srand seed else ret tt.

(**
<<
long random(long howbig) {
    if (howbig == 0) {
        return 0;
    }
    return rand() % howbig;
}
>> *)
Definition random (howbig : Z) : M Z :=
  if howbig =? 0 then ret 0
  else bind call_rand (fun r => ret (long_rem r howbig)).

(** The overload [random(long, long)]:
<<
long random(long howsmall, long howbig) {
    if (howsmall >= howbig) {
        return howsmall;
    }
    long diff = howbig - howsmall;
    return random(diff) + howsmall;
}
>> *)
Definition random2 (howsmall howbig : Z) : M Z :=
  if howsmall >=? howbig then ret howsmall
  else
    let diff := long_sub howbig howsmall in
    bind (random diff) (fun r => ret (long_add r howsmall)).

(** Every function of the core is [void] or returns a plain value and
    none has an error return: every call completes. *)
Definition call {A : Type} (m : M A) (w : World) : outcome A * World :=
  let (a, w') := m w in (Completed a, w').

(** The specification's words for a failed pin operation: the call fails
    with [InvalidPin] and the state is the one before the call. *)
Definition fails_with_InvalidPin {A : Type} (m : M A) (w : World) : Prop :=
  call m w = (Failed InvalidPin, w).

(** [pinMode(p, OUTPUT); digitalWrite(p, v); digitalRead(p)], and the
    value the last call returns. *)
Definition write_then_read (p v : Z) : M Z :=
  seq (pinMode p OUTPUT) (seq (digitalWrite p v) (digitalRead p)).

(** The specification's words for [delay]: it polls [millis()], so a call
    of [delay] enters [millis()] at least once, and it runs no busy-wait
    instruction. *)
Definition delay_polls_millis (ms : Z) (w : World) : Prop :=
  millis_calls w < millis_calls (snd (delay ms w)) /\
  nops (snd (delay ms w)) = nops w.

(** Two readings of [millis()] with any code [between] them. *)
Definition two_millis {A : Type} (between : M A) : M (Z * Z) :=
  bind millis (fun t1 => seq between (bind millis (fun t2 => ret (t1, t2)))).

(** ** The application driver: [main] (Arduino.cpp, lines 12-20)

<<
int main(void) {
    setup();
    for (;;) {
        loop();
    }
    return 0;
}
>>
    [main] is run as a machine that makes one call per step.  The two
    callbacks come from the sketch. *)

Inductive callback : Type :=
| CallSetup
| CallLoop.

Inductive pc : Type :=
| AtSetup
| AtLoop
| AtReturn
| Returned (status : Z).

Record Machine : Type := mkMachine {
  at_pc : pc;
  world : World;
  calls : list callback
}.

Section Driver.

Variables setup loop : M unit.

Definition main_start (w : World) : Machine := mkMachine AtSetup w [].

(** [for (;;)] has no condition: control at the loop stays at the loop.
    The only way to [Returned] is from [return 0], which nothing reaches. *)
Definition main_step (m : Machine) : Machine :=
  match at_pc m with
  | AtSetup => mkMachine AtLoop (snd (setup (world m))) (calls m ++ [CallSetup])
  | AtLoop => mkMachine AtLoop (snd (loop (world m))) (calls m ++ [CallLoop])
  | AtReturn => mkMachine (Returned 0) (world m) (calls m)
  | Returned _ => m
  end.

Definition main_run (n : nat) (w : World) : Machine :=
  Nat.iter n main_step (main_start w).

End Driver.

End Core.

(** Modelled from the spec: the Pin Descriptor table, which the core does
    not have.  The specification gives digital pins 0-13 and the analog
    pins in a contiguous range above them; Arduino.h names that range
    [A0] (14) to [A5] (19) and pin 13 [LED_BUILTIN].  The specification
    does not say which pins have PWM, so no descriptor lists it. *)
Inductive capability : Type :=
| DigitalIn
| DigitalOut
| AnalogIn
| PwmOut.

Record PinDescriptor : Type := mkPin {
  capabilities : list capability
}.

Definition pin_descriptor (pin : Z) : option PinDescriptor :=
  if (0 <=? pin) && (pin <=? LED_BUILTIN)
  then Some (mkPin [DigitalIn; DigitalOut])
  else if (A0 <=? pin) && (pin <=? A5)
  then Some (mkPin [DigitalIn; DigitalOut; AnalogIn])
  else None.

Definition has_output (d : PinDescriptor) : bool :=
  existsb (fun c => match c with DigitalOut => true | _ => false end)
          (capabilities d).

(** The world at reset on [sample_platform]: the C library starts [rand]
    as if [srand(1)] had been called. *)
Definition boot : @World sample_platform := @mkWorld sample_platform tt 1 0 0.

(** ** The rest of the core: pulse, shift and interrupt stubs
    (Arduino.cpp, lines 84-129) *)

Section CoreRest.

Context {P : Platform}.

Definition pulseIn (pin state timeout : Z) : M Z := ret 0.

Definition pulseInLong (pin state timeout : Z) : M Z := ret 0.

Definition shiftOut (dataPin clockPin bitOrder val : Z) : M unit := ret tt.

Definition shiftIn (dataPin clockPin bitOrder : Z) : M Z := ret 0.

(** [userFunc] is the handler, a pointer to a [void] function without
    arguments. *)
Definition attachInterrupt (interruptNum : Z) (userFunc : M unit) (mode : Z)
  : M unit := ret tt.

Definition detachInterrupt (interruptNum : Z) : M unit := ret tt.

End CoreRest.

(** ** The macros of Arduino.h (lines 93-96), at type [long]

<<
#define constrain(amt,low,high) ((amt)<(low)?(low):((amt)>(high)?(high):(amt)))
#define min(a,b) ((a)<(b)?(a):(b))
#define max(a,b) ((a)>(b)?(a):(b))
#define abs(x) ((x)>0?(x):-(x))
>>
    The arguments are expressions without side effects; unary minus on a
    [long] is reduced like the other [long] operations. *)

Module Macro.

Definition constrain (amt low high : Z) : Z :=
  if amt <? low then low else if amt >? high then high else amt.

Definition min (a b : Z) : Z := if a <? b then a else b.

Definition max (a b : Z) : Z := if a >? b then a else b.

Definition abs (x : Z) : Z := if x >? 0 then x else to_long (- x).

End Macro.

(** No intermediate value of [map] leaves the range of [long]. *)
Definition map_fits (x in_min in_max out_min out_max : Z) : Prop :=
  is_long (x - in_min) /\
  is_long (out_max - out_min) /\
  is_long ((x - in_min) * (out_max - out_min)) /\
  is_long (in_max - in_min) /\
  is_long (Z.quot ((x - in_min) * (out_max - out_min)) (in_max - in_min)) /\
  is_long (exact_rescale x in_min in_max out_min out_max).

(** * Part II: theorems *)

(** ** Machine integers *)

Lemma to_long_range z : is_long (to_long z).
Proof.
  unfold is_long, to_long, LONG_MIN, LONG_MAX.
  pose proof (Z.mod_pos_bound (z + 2147483648) 4294967296). lia.
Qed.

Lemma to_long_id z : is_long z -> to_long z = z.
Proof.
  unfold is_long, to_long, LONG_MIN, LONG_MAX. intros Hz.
  rewrite Z.mod_small by lia. lia.
Qed.

(** Above [LONG_MAX] the reduction subtracts 2^32 once. *)
Lemma to_long_high z :
  LONG_MAX < z <= ULONG_MAX -> to_long z = z - 4294967296.
Proof.
  unfold to_long, LONG_MAX, ULONG_MAX. intros Hz.
  replace (z + 2147483648) with ((z - 2147483648) + 1 * 4294967296) by lia.
  rewrite Z.mod_add by lia. rewrite Z.mod_small by lia. lia.
Qed.

(** Below [LONG_MIN] it adds 2^32 once. *)
Lemma to_long_low z :
  - ULONG_MAX <= z < LONG_MIN -> to_long z = z + 4294967296.
Proof.
  unfold to_long, LONG_MIN, ULONG_MAX. intros Hz.
  replace (z + 2147483648)
    with ((z + 2147483648 + 4294967296) + (-1) * 4294967296) by lia.
  rewrite Z.mod_add by lia. rewrite Z.mod_small by lia. lia.
Qed.

Lemma to_ulong_id z : is_ulong z -> to_ulong z = z.
Proof.
  unfold is_ulong, to_ulong, ULONG_MAX. intros Hz. apply Z.mod_small. lia.
Qed.

Lemma to_ulong_range z : is_ulong (to_ulong z).
Proof.
  unfold is_ulong, to_ulong, ULONG_MAX.
  pose proof (Z.mod_pos_bound z 4294967296). lia.
Qed.

Lemma to_uint_id z : is_uint z -> to_uint z = z.
Proof.
  unfold is_uint, to_uint, UINT_MAX. intros Hz. apply Z.mod_small. lia.
Qed.

Lemma to_uint_range z : is_uint (to_uint z).
Proof.
  unfold is_uint, to_uint, UINT_MAX.
  pose proof (Z.mod_pos_bound z 65536). lia.
Qed.

(** Two values of type [long] whose difference reduces to zero are equal. *)
Lemma long_sub_zero a b :
  is_long a -> is_long b -> long_sub a b = 0 -> a = b.
Proof.
  unfold is_long, long_sub, LONG_MIN, LONG_MAX. intros Ha Hb H.
  destruct (Z_le_gt_dec (a - b) 2147483647) as [Hle | Hgt].
  - destruct (Z_le_gt_dec (-2147483648) (a - b)) as [Hge | Hlt].
    + rewrite to_long_id in H by (unfold is_long, LONG_MIN, LONG_MAX; lia). lia.
    + rewrite to_long_low in H by (unfold LONG_MIN, ULONG_MAX; lia). lia.
  - rewrite to_long_high in H by (unfold LONG_MAX, ULONG_MAX; lia). lia.
Qed.

Lemma long_sub_self a : long_sub a a = 0.
Proof. unfold long_sub. rewrite Z.sub_diag. reflexivity. Qed.

Ltac long_bounds := unfold is_long, is_ulong, is_uint, LONG_MIN, LONG_MAX, ULONG_MAX, UINT_MAX in *; lia.

(** ** [map] *)

Lemma exact_rescale_0_10_0_100 x : exact_rescale x 0 10 0 100 = 10 * x.
Proof.
  unfold exact_rescale.
  replace ((x - 0) * (100 - 0)) with ((10 * x) * 10) by lia.
  change (10 - 0) with 10. rewrite Z.quot_mul by lia. lia.
Qed.

Lemma map_0_10_0_100_in_range x :
  -21474836 <= x <= 21474836 -> map x 0 10 0 100 = Ok (10 * x).
Proof.
  intros Hx. unfold map, long_div, long_mul, long_sub, long_add.
  rewrite (to_long_id (x - 0)) by long_bounds.
  change (to_long (100 - 0)) with 100. change (to_long (10 - 0)) with 10.
  rewrite (to_long_id ((x - 0) * 100)) by long_bounds.
  change (10 =? 0) with false. cbv iota.
  replace ((x - 0) * 100) with ((10 * x) * 10) by lia.
  rewrite Z.quot_mul by lia.
  rewrite (to_long_id (10 * x)) by long_bounds.
  rewrite to_long_id by long_bounds.
  f_equal. lia.
Qed.

(** Outside that range the product [x * 100] leaves the range of [long],
    and the value returned is not the exact one. *)
Lemma map_0_10_0_100_overflow x :
  is_long x -> ~ (-21474836 <= x <= 21474836) ->
  map x 0 10 0 100 <> Ok (exact_rescale x 0 10 0 100).
Proof.
  intros Hx Hout. rewrite exact_rescale_0_10_0_100.
  unfold map, long_div, long_mul, long_sub, long_add.
  rewrite (to_long_id (x - 0)) by long_bounds.
  change (to_long (100 - 0)) with 100. change (to_long (10 - 0)) with 10.
  change (10 =? 0) with false. cbv iota.
  pose proof (to_long_range ((x - 0) * 100)) as Hr.
  set (y := to_long ((x - 0) * 100)) in *. clearbody y.
  assert (Hq : -214748364 <= Z.quot y 10 <= 214748364).
  { unfold is_long, LONG_MIN, LONG_MAX in Hr.
    pose proof (Z.quot_rem' y 10) as Hy.
    destruct (Z_le_gt_dec 0 y) as [Hpos | Hneg].
    - pose proof (Z.rem_bound_pos y 10 Hpos ltac:(lia)). lia.
    - pose proof (Z.rem_bound_pos_neg y 10 ltac:(lia) ltac:(lia)). lia. }
  rewrite (to_long_id (Z.quot y 10)) by long_bounds.
  rewrite to_long_id by long_bounds.
  intros Heq.
  assert (H : Z.quot y 10 + 0 = 10 * x) by congruence.
  long_bounds.
Qed.

(** C1 (amended): for every x with -21474836 <= x <= 21474836, the
    range in which [x * 100] fits a 32-bit [long], [map(x, 0, 10, 0, 100)]
    is the exact linear re-scaling with truncating division,
    [(x - 0) * (100 - 0) / (10 - 0) + 0], that is [10 * x]; it returns 50
    for x = 5, 0 for x = 0, 100 for x = 10 and -10 for x = -1. *)
Theorem map_0_10_0_100 (x : Z) :
  -21474836 <= x <= 21474836 ->
  map x 0 10 0 100 = Ok (exact_rescale x 0 10 0 100) /\
  exact_rescale x 0 10 0 100 = 10 * x /\
  map 5 0 10 0 100 = Ok 50 /\
  map 0 0 10 0 100 = Ok 0 /\
  map 10 0 10 0 100 = Ok 100 /\
  map (-1) 0 10 0 100 = Ok (-10).
Proof.
  intros Hx. split; [| split].
  - rewrite exact_rescale_0_10_0_100. apply map_0_10_0_100_in_range, Hx.
  - apply exact_rescale_0_10_0_100.
  - repeat split; reflexivity.
Qed.

Lemma map_0_10_0_100_witness :
  -21474836 <= 7 <= 21474836 /\ map 7 0 10 0 100 = Ok 70.
Proof.
  split; [lia |].
  destruct (map_0_10_0_100 7 ltac:(lia)) as [Hmap _].
  rewrite Hmap. reflexivity.
Defined.

(** C1 as stated fails: at x = 21474837 the product 2147483700 does not
    fit a [long]; the exact re-scaling is 214748370 and [map] returns
    -214748359. *)
Lemma map_0_10_0_100_counterexample :
  is_long 21474837 /\
  exact_rescale 21474837 0 10 0 100 = 214748370 /\
  map 21474837 0 10 0 100 = Ok (-214748359) /\
  map 21474837 0 10 0 100 <> Ok (exact_rescale 21474837 0 10 0 100).
Proof.
  repeat split; try (vm_compute; congruence).
Qed.

(** C8: [map] divides by [in_max - in_min] unguarded.  When [in_max] and
    [in_min] differ the division-by-zero branch is not taken and [map]
    returns a value; when they are equal the result is the
    division-by-zero error. *)
Theorem map_division_by_zero (x in_min in_max out_min out_max : Z) :
  is_long in_min -> is_long in_max ->
  (in_max <> in_min ->
   map x in_min in_max out_min out_max <> Err DivisionByZero /\
   exists v, map x in_min in_max out_min out_max = Ok v) /\
  (in_max = in_min ->
   map x in_min in_max out_min out_max = Err DivisionByZero).
Proof.
  intros Hmin Hmax. unfold map, long_div. split.
  - intros Hne.
    destruct (Z.eqb_spec (long_sub in_max in_min) 0) as [Hz | Hnz].
    + exfalso. apply Hne. apply long_sub_zero; assumption.
    + split; [discriminate | eexists; reflexivity].
  - intros ->. rewrite long_sub_self. reflexivity.
Qed.

Lemma map_division_by_zero_witness :
  is_long 0 /\ is_long 10 /\ is_long 3 /\
  (exists v, map 5 0 10 0 100 = Ok v) /\
  map 5 3 3 0 100 = Err DivisionByZero.
Proof.
  assert (H0 : is_long 0) by (unfold is_long, LONG_MIN, LONG_MAX; lia).
  assert (H10 : is_long 10) by (unfold is_long, LONG_MIN, LONG_MAX; lia).
  assert (H3 : is_long 3) by (unfold is_long, LONG_MIN, LONG_MAX; lia).
  split; [exact H0 |]. split; [exact H10 |]. split; [exact H3 |]. split.
  - apply (proj1 (map_division_by_zero 5 0 10 0 100 H0 H10)). lia.
  - apply (proj2 (map_division_by_zero 5 3 3 0 100 H3 H3)). reflexivity.
Defined.

Section CoreFacts.

Context {P : Platform}.

(** ** Pin operations *)

(** C2 (amended): for every pin number p, with or without a Pin
    Descriptor, each of the five pin operations completes without an error
    and leaves the whole state unchanged: [pinMode], [digitalWrite] and
    [analogWrite] return nothing, [digitalRead] returns [LOW] and
    [analogRead] returns 0. *)
Theorem pin_operations_complete (p mode val : Z) (w : World) :
  call (pinMode p mode) w = (Completed tt, w) /\
  call (digitalWrite p val) w = (Completed tt, w) /\
  call (digitalRead p) w = (Completed LOW, w) /\
  call (analogRead p) w = (Completed 0, w) /\
  call (analogWrite p val) w = (Completed tt, w).
Proof. repeat split. Qed.

Lemma write_then_read_runs (p v : Z) (w : World) :
  write_then_read p v w = (LOW, w).
Proof. reflexivity. Qed.

(** C3 (amended): for every pin p, [pinMode(p, OUTPUT)] and
    [digitalWrite(p, LOW)] followed by [digitalRead(p)] returns [LOW];
    after [digitalWrite(p, HIGH)] the read returns [LOW] as well, the stub
    keeps no level. *)
Theorem write_then_read_low (p : Z) (w : World) :
  fst (write_then_read p LOW w) = LOW /\
  fst (write_then_read p HIGH w) = LOW /\
  forall v, write_then_read p v w = (LOW, w).
Proof. repeat split. Qed.

(** ** Timing *)

(** C4: of two successive readings [t1 = millis()] and [t2 = millis()],
    whatever runs between them, the second is not below the first. *)
Theorem millis_monotonic (A : Type) (between : M A) (w : World) :
  fst (fst (two_millis between w)) <= snd (fst (two_millis between w)).
Proof.
  cbv [two_millis bind seq millis ret].
  destruct (between (enter_millis w)) as [a w']. cbn. lia.
Qed.

Lemma millis_returns_zero (w : World) : fst (millis w) = 0.
Proof. reflexivity. Qed.

Lemma add_nops_0 (w : World) : add_nops 0 w = w.
Proof. destruct w. unfold add_nops. cbn. f_equal. lia. Qed.

Lemma add_nops_nop (n : Z) (w : World) :
  add_nops n (nop w) = add_nops (n + 1) w.
Proof. unfold add_nops, nop. cbn. f_equal. lia. Qed.

(** Entered at [i], the loop of [delay] runs the iterations left up to
    [ms * 1000] reduced to [unsigned long]. *)
Lemma delay_loop_runs (ms i : Z) (w : World) :
  0 <= i <= ulong_mul ms 1000 ->
  delay_loop ms i w = add_nops (ulong_mul ms 1000 - i) w.
Proof.
  funelim (delay_loop ms i w); intros Hi.
  - assert (Hi1 : ulong_add i 1 = i + 1).
    { pose proof (to_ulong_range (ms * 1000)) as Hb.
      unfold ulong_add. apply to_ulong_id.
      unfold ulong_mul in *. long_bounds. }
    rewrite Hi1 in *.
    match goal with
    | IH : _ -> delay_loop _ _ _ = add_nops _ _ |- _ => rewrite IH by lia
    end.
    rewrite add_nops_nop. f_equal. lia.
  - replace (ulong_mul ms 1000 - i) with 0 by lia.
    symmetry. apply add_nops_0.
Qed.

Lemma delay_runs (ms : Z) (w : World) :
  delay ms w = (tt, add_nops (ulong_mul ms 1000) w).
Proof.
  unfold delay. rewrite delay_loop_runs.
  - rewrite Z.sub_0_r. reflexivity.
  - pose proof (to_ulong_range (ms * 1000)). unfold ulong_mul. long_bounds.
Qed.

Lemma delayMicroseconds_loop_runs (us i : Z) (w : World) :
  0 <= i <= to_uint us ->
  delayMicroseconds_loop us i w = add_nops (to_uint us - i) w.
Proof.
  funelim (delayMicroseconds_loop us i w); intros Hi.
  - assert (Hi1 : uint_add i 1 = i + 1).
    { pose proof (to_uint_range us) as Hb.
      unfold uint_add. apply to_uint_id. long_bounds. }
    rewrite Hi1 in *.
    match goal with
    | IH : _ -> delayMicroseconds_loop _ _ _ = add_nops _ _ |- _ =>
        rewrite IH by lia
    end.
    rewrite add_nops_nop. f_equal. lia.
  - replace (to_uint us - i) with 0 by lia.
    symmetry. apply add_nops_0.
Qed.

Lemma delayMicroseconds_runs (us : Z) (w : World) :
  delayMicroseconds us w = (tt, add_nops (to_uint us) w).
Proof.
  unfold delayMicroseconds. rewrite delayMicroseconds_loop_runs.
  - rewrite Z.sub_0_r. reflexivity.
  - pose proof (to_uint_range us). long_bounds.
Qed.

(** C5: [delay(0)] and [delayMicroseconds(0)] return at once: the loop
    test fails on entry, no iteration runs and the state is unchanged. *)
Theorem delay_zero_returns_at_once (w : World) :
  delay_loop 0 0 w = w /\
  delayMicroseconds_loop 0 0 w = w /\
  delay 0 w = (tt, w) /\
  delayMicroseconds 0 w = (tt, w) /\
  nops (snd (delay 0 w)) - nops w = 0 /\
  nops (snd (delayMicroseconds 0 w)) - nops w = 0.
Proof.
  assert (Hd : delay_loop 0 0 w = w) by (simp delay_loop; reflexivity).
  assert (Hu : delayMicroseconds_loop 0 0 w = w)
    by (simp delayMicroseconds_loop; reflexivity).
  unfold delay, delayMicroseconds. rewrite Hd, Hu. cbn [snd].
  repeat split; lia.
Qed.

(** C6 (amended): for every ms up to 4294967, [delay(ms)] returns after
    exactly [ms * 1000] iterations of its busy-wait [nop] loop and changes
    nothing else; it never calls [millis()]. *)
Theorem delay_busy_waits (ms : Z) (w : World) :
  0 <= ms <= 4294967 ->
  delay ms w = (tt, add_nops (ms * 1000) w) /\
  nops (snd (delay ms w)) - nops w = ms * 1000 /\
  millis_calls (snd (delay ms w)) = millis_calls w /\
  ~ delay_polls_millis ms w.
Proof.
  intros Hms.
  assert (Hrun : delay ms w = (tt, add_nops (ms * 1000) w)).
  { rewrite delay_runs. unfold ulong_mul.
    rewrite to_ulong_id by long_bounds. reflexivity. }
  unfold delay_polls_millis. rewrite Hrun. cbn.
  repeat split; try lia.
Qed.

(** Past 4294967 the product [ms * 1000] is reduced modulo 2^32: the loop
    runs [(ms * 1000) mod 2^32] iterations, none at all for 536870912. *)
Lemma delay_iterations_wrap (ms : Z) (w : World) :
  nops (snd (delay ms w)) - nops w = (ms * 1000) mod 4294967296 /\
  delay 536870912 w = (tt, w).
Proof.
  rewrite !delay_runs. cbn [snd]. split.
  - unfold add_nops, ulong_mul, to_ulong. cbn [nops]. lia.
  - change (ulong_mul 536870912 1000) with 0. rewrite add_nops_0. reflexivity.
Qed.

(** ** Random numbers *)

Lemma random_zero (w : World) : random 0 w = (0, w).
Proof. reflexivity. Qed.

(** For a nonzero bound, [rand() % howbig] is not negative, is at most
    what [rand()] returned and is below the magnitude of the bound. *)
Lemma random_nonzero (howbig : Z) (w : World) :
  howbig <> 0 ->
  0 <= fst (random howbig w) <= RAND_MAX /\
  fst (random howbig w) < Z.abs howbig.
Proof.
  intros Hnz. unfold random.
  destruct (Z.eqb_spec howbig 0) as [Hz | _]; [contradiction |].
  cbv [bind call_rand ret].
  pose proof (rand_range (rng w)) as Hr.
  destruct (rand (rng w)) as [r s]. cbn [fst] in *.
  unfold long_rem, RAND_MAX in *.
  assert (Hrem : 0 <= Z.rem r howbig <= r /\ Z.rem r howbig < Z.abs howbig).
  { destruct (Z_lt_ge_dec 0 howbig) as [Hpos | Hneg].
    - pose proof (Z.rem_bound_pos r howbig ltac:(lia) Hpos).
      pose proof (Z.rem_le r howbig ltac:(lia) Hpos). lia.
    - rewrite <- (Z.rem_opp_r r howbig) by assumption.
      pose proof (Z.rem_bound_pos r (- howbig) ltac:(lia) ltac:(lia)).
      pose proof (Z.rem_le r (- howbig) ltac:(lia) ltac:(lia)). lia. }
  rewrite to_long_id by long_bounds. lia.
Qed.

Lemma random_positive (howbig : Z) (w : World) :
  0 < howbig -> 0 <= fst (random howbig w) < howbig.
Proof.
  intros Hpos.
  destruct (random_nonzero howbig w ltac:(lia)) as [Hr Habs]. lia.
Qed.

Lemma random2_not_below (howsmall howbig : Z) (w : World) :
  howsmall >= howbig -> random2 howsmall howbig w = (howsmall, w).
Proof.
  intros Hge. unfold random2.
  destruct (Z.geb_spec howsmall howbig) as [_ | Hlt]; [reflexivity | lia].
Qed.

(** When [howbig - howsmall] does not fit a [long] the difference is
    reduced to a negative [long]; [rand() % diff] is then what [rand()]
    returned, at most [RAND_MAX], and the sum stays below [howbig]. *)
Lemma random2_below (howsmall howbig : Z) (w : World) :
  is_long howsmall -> is_long howbig -> howsmall < howbig ->
  howsmall <= fst (random2 howsmall howbig w) < howbig.
Proof.
  intros Hs Hb Hlt. unfold random2.
  destruct (Z.geb_spec howsmall howbig) as [Hge | _]; [lia |].
  cbv [bind ret].
  set (diff := long_sub howbig howsmall).
  assert (Hdiff : (diff = howbig - howsmall /\ 0 < diff) \/
                  (LONG_MIN <= diff < 0 /\ LONG_MAX < howbig - howsmall)).
  { unfold diff, long_sub.
    destruct (Z_le_gt_dec (howbig - howsmall) LONG_MAX) as [Hfit | Hover].
    - left. rewrite to_long_id by long_bounds. lia.
    - right. rewrite to_long_high by long_bounds. long_bounds. }
  clearbody diff.
  destruct (random_nonzero diff w ltac:(lia)) as [Hr Habs].
  destruct (random diff w) as [r w']. cbn [fst] in *.
  unfold long_add, RAND_MAX in *.
  rewrite to_long_id by long_bounds. long_bounds.
Qed.

(** C9: [random(0)] is 0; for [howbig > 0], [random(howbig)] lies in
    [0, howbig); [random(howsmall, howbig)] is [howsmall] when
    [howsmall >= howbig] and lies in [howsmall, howbig) when
    [howsmall < howbig]. *)
Theorem random_ranges (howsmall howbig : Z) (w : World) :
  is_long howsmall -> is_long howbig ->
  fst (random 0 w) = 0 /\
  (0 < howbig -> 0 <= fst (random howbig w) < howbig) /\
  (howsmall >= howbig -> fst (random2 howsmall howbig w) = howsmall) /\
  (howsmall < howbig ->
   howsmall <= fst (random2 howsmall howbig w) < howbig).
Proof.
  intros Hs Hb. split; [reflexivity |]. split; [| split].
  - apply random_positive.
  - intros Hge. rewrite random2_not_below by assumption. reflexivity.
  - apply random2_below; assumption.
Qed.

(** C10: [randomSeed(0)] does not call [srand] and leaves the state as it
    was, so every later [random] call gives what it would have given
    without it; a nonzero seed calls [srand]. *)
Theorem randomSeed_zero_is_noop (w : World) :
  randomSeed 0 w = (tt, w) /\
  (forall howbig, random howbig (snd (randomSeed 0 w)) = random howbig w) /\
  (forall howsmall howbig,
     random2 howsmall howbig (snd (randomSeed 0 w)) =
     random2 howsmall howbig w) /\
  (forall seed, seed <> 0 ->
     randomSeed seed w = (tt, set_rng (srand (to_uint seed) (rng w)) w)).
Proof.
  split; [reflexivity |]. split; [reflexivity |]. split; [reflexivity |].
  intros seed Hseed. unfold randomSeed.
  destruct (Z.eqb_spec seed 0) as [Hz | _]; [contradiction | reflexivity].
Qed.

(** ** The application driver *)

Section DriverFacts.

Variables setup loop : M unit.

Lemma main_step_at_loop (m : Machine) :
  at_pc m = AtLoop ->
  main_step setup loop m =
  mkMachine AtLoop (snd (loop (world m))) (calls m ++ [CallLoop]).
Proof. intros Hpc. unfold main_step. rewrite Hpc. reflexivity. Qed.

(** After the first step control is at the loop for good: the calls so
    far are one [setup] followed by [loop]s only. *)
Lemma main_run_succ (n : nat) (w : World) :
  main_run setup loop (S n) w =
  mkMachine AtLoop
            (Nat.iter n (fun w' => snd (loop w')) (snd (setup w)))
            (CallSetup :: repeat CallLoop n).
Proof.
  induction n as [| n IH].
  - reflexivity.
  - change (main_run setup loop (S (S n)) w)
      with (main_step setup loop (main_run setup loop (S n) w)).
    rewrite IH. rewrite main_step_at_loop by reflexivity.
    cbn [world calls Nat.iter]. f_equal.
    change (CallSetup :: repeat CallLoop n) with ([CallSetup] ++ repeat CallLoop n).
    rewrite <- app_assoc. cbn [app]. f_equal.
    change (CallLoop :: repeat CallLoop n) with (repeat CallLoop (S n)).
    symmetry. apply repeat_cons.
Qed.

Lemma main_never_returns (n : nat) (w : World) :
  at_pc (main_run setup loop n w) = AtSetup \/
  at_pc (main_run setup loop n w) = AtLoop.
Proof.
  destruct n as [| n].
  - left. reflexivity.
  - right. rewrite main_run_succ. reflexivity.
Qed.

(** C7: [main] calls [setup] once, before any call of [loop], and then
    calls [loop] without end: after n + 1 steps the calls made are one
    [setup] followed by n [loop]s, control is at the loop, and at no step
    is [main] at its [return] or returned. *)
Theorem main_setup_once_then_loop_forever (n : nat) (w : World) :
  calls (main_run setup loop 0 w) = [] /\
  calls (main_run setup loop (S n) w) = CallSetup :: repeat CallLoop n /\
  world (main_run setup loop (S n) w) =
    Nat.iter n (fun w' => snd (loop w')) (snd (setup w)) /\
  at_pc (main_run setup loop (S n) w) = AtLoop /\
  at_pc (main_run setup loop n w) <> AtReturn /\
  forall status, at_pc (main_run setup loop n w) <> Returned status.
Proof.
  rewrite main_run_succ. cbn [calls world at_pc].
  repeat split; try reflexivity.
  - destruct (main_never_returns n w) as [H | H]; rewrite H; discriminate.
  - intros status.
    destruct (main_never_returns n w) as [H | H]; rewrite H; discriminate.
Qed.

End DriverFacts.

End CoreFacts.

(** ** The claims on the sample platform *)

(** C2 as stated fails: pin 200 has no Pin Descriptor, and none of the
    five operations fails with [InvalidPin] on it; each one completes. *)
Lemma invalid_pin_counterexample :
  pin_descriptor 200 = None /\
  ~ fails_with_InvalidPin (pinMode 200 OUTPUT) boot /\
  ~ fails_with_InvalidPin (digitalWrite 200 HIGH) boot /\
  ~ fails_with_InvalidPin (digitalRead 200) boot /\
  ~ fails_with_InvalidPin (analogRead 200) boot /\
  ~ fails_with_InvalidPin (analogWrite 200 128) boot /\
  call (digitalRead 200) boot = (Completed LOW, boot).
Proof.
  unfold fails_with_InvalidPin.
  repeat split; try reflexivity; cbn; discriminate.
Qed.

(** C3 as stated fails: pin 13 has a descriptor with the output
    capability, and after [pinMode(13, OUTPUT)] and
    [digitalWrite(13, HIGH)], [digitalRead(13)] returns [LOW]. *)
Lemma write_then_read_counterexample :
  (exists d, pin_descriptor LED_BUILTIN = Some d /\ has_output d = true) /\
  fst (write_then_read LED_BUILTIN HIGH boot) = LOW /\
  fst (write_then_read LED_BUILTIN HIGH boot) <> HIGH.
Proof.
  split; [| split].
  - eexists. split; reflexivity.
  - reflexivity.
  - cbn. unfold LOW, HIGH. lia.
Qed.

(** C6 as stated fails: [delay(1)] does not poll [millis()]; it never
    enters it and runs a fixed 1000 [nop] iterations.  The count is fixed
    to the point that a request of 536870912 ms returns as [delay(0)]
    does, at once. *)
Lemma delay_polling_counterexample :
  ~ delay_polls_millis 1 boot /\
  millis_calls (snd (delay 1 boot)) = millis_calls boot /\
  nops (snd (delay 1 boot)) - nops boot = 1000 /\
  delay 536870912 boot = delay 0 boot.
Proof.
  unfold delay_polls_millis. rewrite !delay_runs.
  repeat split; try reflexivity.
  cbn. lia.
Qed.

Lemma delay_busy_waits_witness :
  0 <= 3 <= 4294967 /\
  nops (snd (delay 3 boot)) - nops boot = 3000.
Proof.
  split; [lia |].
  destruct (delay_busy_waits 3 boot ltac:(lia)) as [_ [Hn _]].
  exact Hn.
Defined.

Lemma random_ranges_witness :
  is_long (-5) /\ is_long 5 /\
  -5 <= fst (random2 (-5) 5 boot) < 5 /\
  0 <= fst (random 5 boot) < 5.
Proof.
  assert (Hs : is_long (-5)) by (unfold is_long, LONG_MIN, LONG_MAX; lia).
  assert (Hb : is_long 5) by (unfold is_long, LONG_MIN, LONG_MAX; lia).
  split; [exact Hs |]. split; [exact Hb |].
  destruct (random_ranges (-5) 5 boot Hs Hb) as [_ [Hpos [_ Hlt]]].
  split; [apply Hlt | apply Hpos]; lia.
Defined.

Lemma randomSeed_zero_is_noop_witness :
  42 <> 0 /\
  randomSeed 0 boot = (tt, boot) /\
  rng (snd (randomSeed 42 boot)) = 42.
Proof.
  destruct (randomSeed_zero_is_noop boot) as [Hzero [_ [_ Hseed]]].
  split; [lia |]. split; [exact Hzero |].
  rewrite (Hseed 42) by lia. reflexivity.
Defined.

(** * Part II, continued: the rest of the code *)

(** ** [map] in general *)

Lemma map_when_fits (x in_min in_max out_min out_max : Z) :
  in_max <> in_min ->
  map_fits x in_min in_max out_min out_max ->
  map x in_min in_max out_min out_max =
  Ok (exact_rescale x in_min in_max out_min out_max).
Proof.
  intros Hne (Ha & Hr & Hp & Hd & Hq & Hv).
  unfold map, long_div, long_mul, long_sub, long_add, exact_rescale in *.
  rewrite (to_long_id (x - in_min)) by assumption.
  rewrite (to_long_id (out_max - out_min)) by assumption.
  rewrite (to_long_id (in_max - in_min)) by assumption.
  rewrite (to_long_id ((x - in_min) * (out_max - out_min))) by assumption.
  destruct (Z.eqb_spec (in_max - in_min) 0) as [Hz | _]; [lia |].
  rewrite (to_long_id (Z.quot _ _)) by assumption.
  rewrite to_long_id by assumption. reflexivity.
Qed.

(** X1: when [in_max] differs from [in_min] and no intermediate value
    leaves the range of [long], [map] returns the exact re-scaling with
    truncating division. *)
Theorem map_exact (x in_min in_max out_min out_max : Z) :
  in_max <> in_min ->
  map_fits x in_min in_max out_min out_max ->
  map x in_min in_max out_min out_max =
  Ok (Z.quot ((x - in_min) * (out_max - out_min)) (in_max - in_min) + out_min).
Proof. intros Hne Hfit. apply (map_when_fits _ _ _ _ _ Hne Hfit). Qed.

Lemma map_exact_witness :
  1023 <> 0 /\ map_fits 512 0 1023 0 255 /\ map 512 0 1023 0 255 = Ok 127.
Proof.
  assert (Hne : 1023 <> 0) by lia.
  assert (Hfit : map_fits 512 0 1023 0 255).
  { unfold map_fits, is_long, LONG_MIN, LONG_MAX. vm_compute.
    repeat split; discriminate. }
  split; [exact Hne |]. split; [exact Hfit |].
  rewrite (map_exact 512 0 1023 0 255 Hne Hfit). reflexivity.
Defined.

(** X2: at [x = in_min], [map] returns [out_min], whatever [out_max] is
    (also when [out_max - out_min] overflows), as long as [in_max] differs
    from [in_min]. *)
Theorem map_at_in_min (in_min in_max out_min out_max : Z) :
  is_long in_min -> is_long in_max -> is_long out_min ->
  in_max <> in_min ->
  map in_min in_min in_max out_min out_max = Ok out_min.
Proof.
  intros Hmin Hmax Hout Hne. unfold map, long_div.
  rewrite long_sub_self. unfold long_mul. rewrite Z.mul_0_l.
  change (to_long 0) with 0.
  destruct (Z.eqb_spec (long_sub in_max in_min) 0) as [Hz | _].
  - exfalso. apply Hne. apply long_sub_zero; assumption.
  - rewrite Z.quot_0_l by (intros Hz; apply Hne; apply long_sub_zero; assumption).
    change (to_long 0) with 0. unfold long_add. rewrite Z.add_0_l.
    rewrite to_long_id by assumption. reflexivity.
Qed.

Lemma map_at_in_min_witness :
  is_long 3 /\ is_long 10 /\ is_long (-7) /\ 10 <> 3 /\
  map 3 3 10 (-7) 2147483647 = Ok (-7).
Proof.
  assert (H3 : is_long 3) by (unfold is_long, LONG_MIN, LONG_MAX; lia).
  assert (H10 : is_long 10) by (unfold is_long, LONG_MIN, LONG_MAX; lia).
  assert (H7 : is_long (-7)) by (unfold is_long, LONG_MIN, LONG_MAX; lia).
  assert (Hne : 10 <> 3) by lia.
  split; [exact H3 |]. split; [exact H10 |]. split; [exact H7 |].
  split; [exact Hne |].
  apply (map_at_in_min 3 10 (-7) 2147483647 H3 H10 H7 Hne).
Defined.

(** For an input inside a forward input range whose scaled width fits a
    [long], nothing overflows and the exact value lies in the output
    range. *)
Lemma map_fits_in_range (x in_min in_max out_min out_max : Z) :
  is_long in_min -> is_long out_min -> is_long out_max ->
  in_min < in_max -> out_min <= out_max ->
  is_long (in_max - in_min) ->
  is_long ((in_max - in_min) * (out_max - out_min)) ->
  in_min <= x <= in_max ->
  map_fits x in_min in_max out_min out_max /\
  out_min <= exact_rescale x in_min in_max out_min out_max <= out_max.
Proof.
  intros Hmin Homin Homax Hin Hout Hd Hp Hx.
  unfold map_fits, exact_rescale.
  set (a := x - in_min). set (d := in_max - in_min) in *.
  set (r := out_max - out_min) in *.
  assert (Ha : 0 <= a <= d) by (unfold a, d; lia).
  assert (Hr : 0 <= r) by (unfold r; lia).
  assert (Hd0 : 0 < d) by (unfold d; lia).
  assert (Har : 0 <= a * r <= d * r) by nia.
  assert (Hq : 0 <= Z.quot (a * r) d <= r).
  { split.
    - apply Z.quot_pos; lia.
    - replace r with (Z.quot (r * d) d) at 2 by (apply Z.quot_mul; lia).
      apply Z.quot_le_mono; lia. }
  assert (Hrd : r <= d * r) by nia.
  assert (Hrw : r = out_max - out_min) by reflexivity.
  clearbody a d r.
  unfold is_long, LONG_MIN, LONG_MAX in *.
  repeat split; lia.
Qed.

(** X3: for a forward input range and a non-decreasing output range whose
    scaled width [(in_max - in_min) * (out_max - out_min)] fits a [long],
    [map] sends every x of the input range into the output range. *)
Theorem map_in_output_range (x in_min in_max out_min out_max : Z) :
  is_long in_min -> is_long out_min -> is_long out_max ->
  in_min < in_max -> out_min <= out_max ->
  is_long (in_max - in_min) ->
  is_long ((in_max - in_min) * (out_max - out_min)) ->
  in_min <= x <= in_max ->
  exists v, map x in_min in_max out_min out_max = Ok v /\
            out_min <= v <= out_max.
Proof.
  intros Hmin Homin Homax Hin Hout Hd Hp Hx.
  destruct (map_fits_in_range x in_min in_max out_min out_max)
    as [Hfit Hrange]; try assumption.
  exists (exact_rescale x in_min in_max out_min out_max).
  split; [| exact Hrange].
  apply map_when_fits; [lia | exact Hfit].
Qed.

Lemma map_in_output_range_witness :
  exists v, map 700 0 1023 0 255 = Ok v /\ 0 <= v <= 255.
Proof.
  apply (map_in_output_range 700 0 1023 0 255);
    unfold is_long, LONG_MIN, LONG_MAX; lia.
Defined.

(** X4: under the same conditions [map] is monotone: a larger input of
    the input range never gives a smaller result. *)
Theorem map_monotone (x y in_min in_max out_min out_max : Z) :
  is_long in_min -> is_long out_min -> is_long out_max ->
  in_min < in_max -> out_min <= out_max ->
  is_long (in_max - in_min) ->
  is_long ((in_max - in_min) * (out_max - out_min)) ->
  in_min <= x -> x <= y -> y <= in_max ->
  exists vx vy,
    map x in_min in_max out_min out_max = Ok vx /\
    map y in_min in_max out_min out_max = Ok vy /\
    vx <= vy.
Proof.
  intros Hmin Homin Homax Hin Hout Hd Hp Hx Hxy Hy.
  destruct (map_fits_in_range x in_min in_max out_min out_max)
    as [Hfx _]; try assumption; try lia.
  destruct (map_fits_in_range y in_min in_max out_min out_max)
    as [Hfy _]; try assumption; try lia.
  exists (exact_rescale x in_min in_max out_min out_max),
         (exact_rescale y in_min in_max out_min out_max).
  split; [apply map_when_fits; [lia | exact Hfx] |].
  split; [apply map_when_fits; [lia | exact Hfy] |].
  unfold exact_rescale. apply Z.add_le_mono_r.
  apply Z.quot_le_mono; [lia |].
  apply Z.mul_le_mono_nonneg_r; lia.
Qed.

Lemma map_monotone_witness :
  exists vx vy,
    map 100 0 1023 0 255 = Ok vx /\ map 900 0 1023 0 255 = Ok vy /\ vx <= vy.
Proof.
  apply (map_monotone 100 900 0 1023 0 255);
    unfold is_long, LONG_MIN, LONG_MAX; lia.
Defined.

(** X5: at [x = in_max], [map] returns [out_max], provided the two
    widths and their product fit a [long]. *)
Theorem map_at_in_max (in_min in_max out_min out_max : Z) :
  is_long out_max -> in_max <> in_min ->
  is_long (in_max - in_min) -> is_long (out_max - out_min) ->
  is_long ((in_max - in_min) * (out_max - out_min)) ->
  map in_max in_min in_max out_min out_max = Ok out_max.
Proof.
  intros Homax Hne Hd Hr Hp.
  assert (Hq : Z.quot ((in_max - in_min) * (out_max - out_min))
                      (in_max - in_min) = out_max - out_min).
  { rewrite Z.mul_comm. apply Z.quot_mul. lia. }
  assert (Hv : exact_rescale in_max in_min in_max out_min out_max = out_max).
  { unfold exact_rescale. rewrite Hq. lia. }
  rewrite <- Hv at 2. apply map_when_fits; [exact Hne |].
  unfold map_fits. rewrite Hq, Hv.
  repeat (split; [assumption |]). assumption.
Qed.

Lemma map_at_in_max_witness :
  map 1023 0 1023 255 0 = Ok 0.
Proof.
  apply (map_at_in_max 0 1023 255 0);
    unfold is_long, LONG_MIN, LONG_MAX; lia.
Defined.

Lemma quot_abs_le (a b : Z) : b <> 0 -> Z.abs (Z.quot a b) <= Z.abs a.
Proof.
  intros Hb. rewrite <- Z.quot_abs by assumption.
  apply Z.quot_le_upper_bound; [lia |]. nia.
Qed.

(** X6: with [in_min = out_min = 0] the division truncates towards zero,
    so [map] is odd: negating x negates the result, as long as x and
    [x * out_max] stay within [-LONG_MAX .. LONG_MAX]. *)
Theorem map_odd (x in_max out_max : Z) :
  is_long in_max -> is_long out_max -> in_max <> 0 ->
  - LONG_MAX <= x <= LONG_MAX ->
  - LONG_MAX <= x * out_max <= LONG_MAX ->
  exists v, map x 0 in_max 0 out_max = Ok v /\
            map (- x) 0 in_max 0 out_max = Ok (- v).
Proof.
  intros Hd Hr Hne Hx Hp.
  pose proof (quot_abs_le (x * out_max) in_max Hne) as Hq.
  assert (Hneg : Z.quot (- x * out_max) in_max = - Z.quot (x * out_max) in_max).
  { rewrite Z.mul_opp_l. apply Z.quot_opp_l. exact Hne. }
  exists (Z.quot (x * out_max) in_max). split.
  - rewrite map_when_fits.
    + unfold exact_rescale. rewrite !Z.sub_0_r, Z.add_0_r. reflexivity.
    + lia.
    + unfold map_fits, exact_rescale. rewrite !Z.sub_0_r, Z.add_0_r.
      unfold is_long, LONG_MIN, LONG_MAX in *. repeat split; lia.
  - rewrite map_when_fits.
    + unfold exact_rescale. rewrite !Z.sub_0_r, Z.add_0_r, Hneg. reflexivity.
    + lia.
    + unfold map_fits, exact_rescale. rewrite !Z.sub_0_r, Z.add_0_r, Hneg.
      unfold is_long, LONG_MIN, LONG_MAX in *. repeat split; lia.
Qed.

Lemma map_odd_witness :
  exists v, map 7 0 10 0 3 = Ok v /\ map (-7) 0 10 0 3 = Ok (- v).
Proof.
  apply (map_odd 7 10 3); unfold is_long, LONG_MIN, LONG_MAX; lia.
Defined.

(** X20: for a [long] x, [map(x, 0, 10, 0, 100)] is the exact re-scaling
    exactly when x lies in -21474836 .. 21474836; outside, the product
    [x * 100] overflows and the result is another value. *)
Theorem map_0_10_0_100_exact_iff (x : Z) :
  is_long x ->
  (map x 0 10 0 100 = Ok (exact_rescale x 0 10 0 100) <->
   -21474836 <= x <= 21474836).
Proof.
  intros Hx. split.
  - intros Heq.
    destruct (Z_le_gt_dec (-21474836) x) as [Hlo | Hlo];
      destruct (Z_le_gt_dec x 21474836) as [Hhi | Hhi]; try lia;
      exfalso; apply (map_0_10_0_100_overflow x Hx); try assumption; lia.
  - intros Hrange. rewrite exact_rescale_0_10_0_100.
    apply map_0_10_0_100_in_range, Hrange.
Qed.

Lemma map_0_10_0_100_exact_iff_witness :
  is_long 2147483647 /\
  map 2147483647 0 10 0 100 <> Ok (exact_rescale 2147483647 0 10 0 100).
Proof.
  assert (Hx : is_long 2147483647) by (unfold is_long, LONG_MIN, LONG_MAX; lia).
  split; [exact Hx |].
  intros Heq. apply (map_0_10_0_100_exact_iff 2147483647 Hx) in Heq. lia.
Defined.

Section RestFacts.

Context {P : Platform}.

(** ** Busy-wait loops in general *)

Lemma add_nops_add (n m : Z) (w : World) :
  add_nops m (add_nops n w) = add_nops (n + m) w.
Proof. unfold add_nops. cbn. f_equal. lia. Qed.

(** X7: for every ms, [delay(ms)] runs [(ms * 1000) mod 2^32] iterations
    and changes nothing else; so [delay] is periodic in ms with period
    536870912 (2^29): [delay(ms + 536870912)] does what [delay(ms)] does. *)
Theorem delay_wraps (ms : Z) (w : World) :
  delay ms w = (tt, add_nops ((ms * 1000) mod 4294967296) w) /\
  delay (ms + 536870912) w = delay ms w.
Proof.
  rewrite !delay_runs. unfold ulong_mul, to_ulong. split; [reflexivity |].
  replace ((ms + 536870912) * 1000) with (ms * 1000 + 125 * 4294967296) by lia.
  rewrite Z.mod_add by lia. reflexivity.
Qed.

(** X8: for every [unsigned int] us, [delayMicroseconds(us)] runs exactly
    us iterations of its [nop] loop, changes nothing else and does not
    enter [millis()]. *)
Theorem delayMicroseconds_iterations (us : Z) (w : World) :
  is_uint us ->
  delayMicroseconds us w = (tt, add_nops us w) /\
  nops (snd (delayMicroseconds us w)) - nops w = us /\
  millis_calls (snd (delayMicroseconds us w)) = millis_calls w.
Proof.
  intros Hus. rewrite delayMicroseconds_runs, to_uint_id by assumption.
  cbn. repeat split; lia.
Qed.

(** X9: two delays in a row do what one delay of the summed time does,
    as long as the sum is at most 4294967 ms. *)
Theorem delay_additive (a b : Z) (w : World) :
  0 <= a -> 0 <= b -> a + b <= 4294967 ->
  seq (delay a) (delay b) w = delay (a + b) w.
Proof.
  intros Ha Hb Hab. cbv [seq bind]. rewrite (delay_runs a w).
  rewrite !delay_runs. unfold ulong_mul.
  rewrite !to_ulong_id by long_bounds.
  rewrite add_nops_add. do 2 f_equal. lia.
Qed.

(** X10: up to 65 ms, [delay(ms)] does exactly what
    [delayMicroseconds(ms * 1000)] does. *)
Theorem delay_as_delayMicroseconds (ms : Z) (w : World) :
  0 <= ms <= 65 ->
  delay ms w = delayMicroseconds (ms * 1000) w.
Proof.
  intros Hms. rewrite delay_runs, delayMicroseconds_runs.
  unfold ulong_mul. rewrite to_ulong_id, to_uint_id by long_bounds.
  reflexivity.
Qed.

(** X11: two [millis()] readings taken before and after a [delay(ms)]
    are both 0, for every ms: the time service does not see the delay,
    which ran its [(ms * 1000) mod 2^32] iterations in between. *)
Theorem millis_across_delay (ms : Z) (w : World) :
  fst (two_millis (delay ms) w) = (0, 0) /\
  nops (snd (two_millis (delay ms) w)) - nops w
    = (ms * 1000) mod 4294967296 /\
  millis_calls (snd (two_millis (delay ms) w)) = millis_calls w + 2.
Proof.
  cbv [two_millis seq bind millis ret]. rewrite delay_runs.
  unfold ulong_mul, to_ulong. cbn. repeat split; lia.
Qed.

(** X21: for an [unsigned long] ms, [delay(ms)] runs the [ms * 1000]
    iterations asked for exactly when ms is at most 4294967; above that
    it runs fewer. *)
Theorem delay_exact_iff (ms : Z) (w : World) :
  is_ulong ms ->
  (nops (snd (delay ms w)) - nops w = ms * 1000 <-> ms <= 4294967) /\
  nops (snd (delay ms w)) - nops w <= ms * 1000.
Proof.
  intros Hms. rewrite delay_runs. cbn [snd]. unfold add_nops. cbn [nops].
  pose proof (to_ulong_range (ms * 1000)) as Hr.
  unfold ulong_mul. unfold is_ulong, ULONG_MAX in *.
  assert (Hle : to_ulong (ms * 1000) <= ms * 1000).
  { unfold to_ulong. apply Z.mod_le; lia. }
  split; [split |]; try lia.
  intros Hsmall. rewrite to_ulong_id by (unfold is_ulong, ULONG_MAX; lia). lia.
Qed.

(** ** Random numbers in general *)

Lemma random_at_most_RAND_MAX_any (howbig : Z) (w : World) :
  0 <= fst (random howbig w) <= RAND_MAX.
Proof.
  destruct (Z.eq_dec howbig 0) as [-> | Hnz].
  - rewrite random_zero. cbn. unfold RAND_MAX. lia.
  - apply random_nonzero, Hnz.
Qed.

(** X12: whatever the bound, also a negative one, [random(howbig)] lies
    between 0 and [RAND_MAX]; for a nonzero bound it is below the
    magnitude of the bound. *)
Theorem random_at_most_RAND_MAX (howbig : Z) (w : World) :
  0 <= fst (random howbig w) <= RAND_MAX /\
  (howbig <> 0 -> fst (random howbig w) < Z.abs howbig).
Proof.
  destruct (Z.eq_dec howbig 0) as [-> | Hnz].
  - rewrite random_zero. cbn. unfold RAND_MAX. split; [lia | congruence].
  - destruct (random_nonzero howbig w Hnz) as [Hr Habs].
    split; [exact Hr | intros _; exact Habs].
Qed.

(** The difference of two ordered [long]s either fits, or is reduced to a
    negative [long]. *)
Lemma long_sub_ordered (a b : Z) :
  is_long a -> is_long b -> a < b ->
  (long_sub b a = b - a /\ 0 < long_sub b a) \/
  (LONG_MIN <= long_sub b a < 0 /\ LONG_MAX < b - a).
Proof.
  intros Ha Hb Hlt. unfold long_sub.
  destruct (Z_le_gt_dec (b - a) LONG_MAX) as [Hfit | Hover].
  - left. rewrite to_long_id by long_bounds. lia.
  - right. rewrite to_long_high by long_bounds. long_bounds.
Qed.

Lemma random2_value (howsmall howbig : Z) (w : World) :
  is_long howsmall -> is_long howbig -> howsmall < howbig ->
  random2 howsmall howbig w =
  (fst (random (long_sub howbig howsmall) w) + howsmall,
   snd (random (long_sub howbig howsmall) w)).
Proof.
  intros Hs Hb Hlt. unfold random2.
  destruct (Z.geb_spec howsmall howbig) as [Hge | _]; [lia |].
  cbv [bind ret].
  pose proof (long_sub_ordered howsmall howbig Hs Hb Hlt) as Hdiff.
  set (diff := long_sub howbig howsmall) in *. clearbody diff.
  destruct (random_nonzero diff w ltac:(lia)) as [Hr Habs].
  destruct (random diff w) as [r w']. cbn [fst snd] in *.
  f_equal. unfold long_add, RAND_MAX in *.
  apply to_long_id. long_bounds.
Qed.

(** X13: for [long] bounds with [howsmall < howbig],
    [random(howsmall, howbig)] is never more than [RAND_MAX] above
    [howsmall], however wide the range is. *)
Theorem random2_at_most_RAND_MAX_above (howsmall howbig : Z) (w : World) :
  is_long howsmall -> is_long howbig -> howsmall < howbig ->
  howsmall <= fst (random2 howsmall howbig w) <= howsmall + RAND_MAX.
Proof.
  intros Hs Hb Hlt. rewrite random2_value by assumption. cbn [fst].
  destruct (random_at_most_RAND_MAX_any (long_sub howbig howsmall) w) as [H0 H1].
  lia.
Qed.

(** X14: [random(howbig)] draws from [rand()] once when [howbig] is not 0
    and not at all when it is 0; [random(howsmall, howbig)] draws once
    when [howsmall < howbig] and not at all otherwise.  Nothing but the
    generator state changes. *)
Theorem random_draws (howsmall howbig : Z) (w : World) :
  is_long howsmall -> is_long howbig ->
  snd (random 0 w) = w /\
  (howbig <> 0 -> snd (random howbig w) = snd (call_rand w)) /\
  (howsmall >= howbig -> snd (random2 howsmall howbig w) = w) /\
  (howsmall < howbig ->
   snd (random2 howsmall howbig w) = snd (call_rand w)).
Proof.
  intros Hs Hb.
  assert (Hdraw : forall n, n <> 0 -> snd (random n w) = snd (call_rand w)).
  { intros n Hn. unfold random.
    destruct (Z.eqb_spec n 0) as [Hz | _]; [contradiction |].
    cbv [bind ret]. destruct (call_rand w) as [r w']. reflexivity. }
  split; [reflexivity |]. split; [apply Hdraw |]. split.
  - intros Hge. rewrite random2_not_below by assumption. reflexivity.
  - intros Hlt. rewrite random2_value by assumption. cbn [snd].
    apply Hdraw. intros Hz.
    apply long_sub_zero in Hz; [lia | assumption | assumption].
Qed.

(** X15: shifting both bounds by the same amount shifts the result by
    that amount: [random(howsmall + c, howbig + c)] is
    [random(howsmall, howbig) + c] from the same generator state. *)
Theorem random2_translation (howsmall howbig c : Z) (w : World) :
  is_long howsmall -> is_long howbig ->
  is_long (howsmall + c) -> is_long (howbig + c) ->
  howsmall < howbig ->
  fst (random2 (howsmall + c) (howbig + c) w) =
  fst (random2 howsmall howbig w) + c /\
  snd (random2 (howsmall + c) (howbig + c) w) =
  snd (random2 howsmall howbig w).
Proof.
  intros Hs Hb Hsc Hbc Hlt.
  rewrite (random2_value (howsmall + c) (howbig + c)) by (assumption || lia).
  rewrite (random2_value howsmall howbig) by assumption.
  unfold long_sub.
  replace (howbig + c - (howsmall + c)) with (howbig - howsmall) by lia.
  cbn [fst snd]. split; [lia | reflexivity].
Qed.

End RestFacts.

(** ** The macros of Arduino.h *)

(** X16: with [low <= high], [constrain(amt, low, high)] lies in
    [low, high], is [amt] itself when [amt] already does, and constraining
    twice changes nothing more. *)
Theorem constrain_in_range (amt low high : Z) :
  low <= high ->
  low <= Macro.constrain amt low high <= high /\
  (low <= amt <= high -> Macro.constrain amt low high = amt) /\
  Macro.constrain (Macro.constrain amt low high) low high =
  Macro.constrain amt low high.
Proof.
  intros Hlh. unfold Macro.constrain.
  destruct (Z.ltb_spec amt low) as [Hlt | Hge].
  - destruct (Z.ltb_spec low low); [lia |].
    destruct (Z.gtb_spec low high); [lia |]. repeat split; lia.
  - destruct (Z.gtb_spec amt high) as [Hgt | Hle].
    + destruct (Z.ltb_spec high low); [lia |].
      destruct (Z.gtb_spec high high); [lia |]. repeat split; lia.
    + destruct (Z.ltb_spec amt low); [lia |].
      destruct (Z.gtb_spec amt high); [lia |]. repeat split; lia.
Qed.

(** X17: [min] and [max] are the least and the greatest of their two
    arguments, and with [low <= high], [constrain(amt, low, high)] is
    [max(low, min(amt, high))]. *)
Theorem constrain_as_max_min (amt low high : Z) :
  low <= high ->
  Macro.min amt high = Z.min amt high /\
  Macro.max low amt = Z.max low amt /\
  Macro.constrain amt low high = Macro.max low (Macro.min amt high).
Proof.
  intros Hlh. unfold Macro.constrain, Macro.min, Macro.max.
  destruct (Z.ltb_spec amt high); destruct (Z.gtb_spec low amt);
    destruct (Z.ltb_spec amt low); destruct (Z.gtb_spec amt high);
    try lia; repeat split; try lia;
    destruct (Z.gtb_spec low high); lia.
Qed.

(** X18: with the bounds the wrong way round, [high < low],
    [constrain(amt, low, high)] never returns [amt] unchanged unless it is
    one of the bounds: it is [low] for [amt < low] and [high] for every
    other [amt]. *)
Theorem constrain_inverted (amt low high : Z) :
  high < low ->
  (amt < low -> Macro.constrain amt low high = low) /\
  (low <= amt -> Macro.constrain amt low high = high).
Proof.
  intros Hinv. unfold Macro.constrain.
  destruct (Z.ltb_spec amt low); destruct (Z.gtb_spec amt high);
    split; intros; lia.
Qed.

(** X19: for every [long] x other than [LONG_MIN], [abs(x)] is the
    absolute value of x; [abs(LONG_MIN)] is [LONG_MIN] itself, the one
    negative result. *)
Theorem abs_long (x : Z) :
  is_long x ->
  (x <> LONG_MIN -> Macro.abs x = Z.abs x) /\
  (x = LONG_MIN -> Macro.abs x = LONG_MIN) /\
  (0 <= Macro.abs x <-> x <> LONG_MIN).
Proof.
  intros Hx.
  assert (Hmin : Macro.abs LONG_MIN = LONG_MIN) by reflexivity.
  assert (Hother : x <> LONG_MIN -> Macro.abs x = Z.abs x).
  { intros Hne. unfold Macro.abs.
    destruct (Z.gtb_spec x 0) as [Hpos | Hneg]; [lia |].
    rewrite to_long_id by long_bounds. lia. }
  split; [exact Hother |]. split; [intros ->; exact Hmin |].
  split.
  - intros Hnonneg Heq. subst x. rewrite Hmin in Hnonneg.
    unfold LONG_MIN in Hnonneg. lia.
  - intros Hne. rewrite Hother by assumption. lia.
Qed.

(** ** The additional theorems on the sample platform *)

Ltac long_lit := unfold is_long, is_uint, LONG_MIN, LONG_MAX, UINT_MAX; lia.

Lemma delayMicroseconds_iterations_witness :
  is_uint 250 /\ nops (snd (delayMicroseconds 250 boot)) - nops boot = 250.
Proof.
  assert (Hus : is_uint 250) by long_lit.
  split; [exact Hus |].
  apply (delayMicroseconds_iterations 250 boot Hus).
Defined.

Lemma delay_additive_witness :
  0 <= 2 /\ 0 <= 3 /\ 2 + 3 <= 4294967 /\
  seq (delay 2) (delay 3) boot = delay 5 boot.
Proof.
  split; [lia |]. split; [lia |]. split; [lia |].
  apply (delay_additive 2 3 boot); lia.
Defined.

Lemma delay_as_delayMicroseconds_witness :
  0 <= 65 <= 65 /\ delay 65 boot = delayMicroseconds 65000 boot.
Proof.
  split; [lia |].
  apply (delay_as_delayMicroseconds 65 boot). lia.
Defined.

Lemma random_at_most_RAND_MAX_witness :
  -100000 <> 0 /\
  0 <= fst (random (-100000) boot) <= RAND_MAX /\
  fst (random (-100000) boot) < Z.abs (-100000).
Proof.
  destruct (random_at_most_RAND_MAX (-100000) boot) as [Hr Habs].
  split; [lia |]. split; [exact Hr | apply Habs; lia].
Defined.

Lemma random2_at_most_RAND_MAX_above_witness :
  is_long (-2000000000) /\ is_long 2000000000 /\
  -2000000000 < 2000000000 /\
  -2000000000 <= fst (random2 (-2000000000) 2000000000 boot)
              <= -2000000000 + RAND_MAX.
Proof.
  assert (Hs : is_long (-2000000000)) by long_lit.
  assert (Hb : is_long 2000000000) by long_lit.
  assert (Hlt : -2000000000 < 2000000000) by lia.
  split; [exact Hs |]. split; [exact Hb |]. split; [exact Hlt |].
  apply (random2_at_most_RAND_MAX_above (-2000000000) 2000000000 boot Hs Hb Hlt).
Defined.

Lemma random_draws_witness :
  is_long 1 /\ is_long 7 /\
  snd (random2 7 1 boot) = boot /\
  snd (random2 1 7 boot) = snd (call_rand boot).
Proof.
  assert (H1 : is_long 1) by long_lit.
  assert (H7 : is_long 7) by long_lit.
  split; [exact H1 |]. split; [exact H7 |]. split.
  - apply (random_draws 7 1 boot H7 H1). lia.
  - apply (random_draws 1 7 boot H1 H7). lia.
Defined.

Lemma random2_translation_witness :
  fst (random2 (10 + 90) (20 + 90) boot) = fst (random2 10 20 boot) + 90.
Proof.
  apply (random2_translation 10 20 90 boot); long_lit.
Defined.

Lemma constrain_in_range_witness :
  0 <= 255 /\
  0 <= Macro.constrain 300 0 255 <= 255 /\
  Macro.constrain 128 0 255 = 128.
Proof.
  split; [lia |]. split.
  - apply (constrain_in_range 300 0 255). lia.
  - apply (constrain_in_range 128 0 255); lia.
Defined.

Lemma constrain_as_max_min_witness :
  0 <= 255 /\
  Macro.constrain (-4) 0 255 = Macro.max 0 (Macro.min (-4) 255).
Proof.
  split; [lia |].
  apply (constrain_as_max_min (-4) 0 255). lia.
Defined.

Lemma constrain_inverted_witness :
  0 < 255 /\ Macro.constrain 128 255 0 = 255 /\ Macro.constrain 300 255 0 = 0.
Proof.
  split; [lia |]. split.
  - apply (constrain_inverted 128 255 0); lia.
  - apply (constrain_inverted 300 255 0); lia.
Defined.

Lemma abs_long_witness :
  is_long (-42) /\ -42 <> LONG_MIN /\ Macro.abs (-42) = 42 /\
  is_long LONG_MIN /\ Macro.abs LONG_MIN = LONG_MIN.
Proof.
  assert (H42 : is_long (-42)) by long_lit.
  assert (Hmin : is_long LONG_MIN) by long_lit.
  assert (Hne : -42 <> LONG_MIN) by (unfold LONG_MIN; lia).
  split; [exact H42 |]. split; [exact Hne |]. split.
  - apply (abs_long (-42) H42). exact Hne.
  - split; [exact Hmin |]. apply (abs_long LONG_MIN Hmin). reflexivity.
Defined.

Lemma delay_exact_iff_witness :
  is_ulong 4294968 /\
  nops (snd (delay 4294968 boot)) - nops boot <> 4294968 * 1000.
Proof.
  assert (Hms : is_ulong 4294968) by (unfold is_ulong, ULONG_MAX; lia).
  split; [exact Hms |].
  intros Heq. apply (delay_exact_iff 4294968 boot Hms) in Heq. lia.
Defined.
